(** * ThreadSafeQueue: a joinable, thread-safe FIFO queue

    Shallow embedding of [ThreadSafeQueue<T>] (ThreadSafeQueue.hpp).

    The class owns a [std::queue<T>], a mutex, a condition variable and
    the flag [m_joined].  Every member function takes the mutex on entry,
    so the part of a member function that runs between taking the mutex
    and either releasing it or going to sleep on the condition variable
    is one atomic transition of the pair ([m_queue], [m_joined]).

    - Module [TSQ] embeds those transitions, one definition per member
      function.
    - Module [Monitor] puts threads around them: who sleeps on
      [m_condition], who has been notified, who still owes a notification
      after [lock.unlock()]. *)

From stdpp Require Import base list.

Module TSQ.

(** ** std::queue<T> *)

Section StdQueue.
Context {T : Type}.

(** [std::queue::size]: the number of stored elements. *)
Definition q_size (l : list T) : nat := length l.

(** [std::queue::empty]. *)
Definition q_empty (l : list T) : bool :=
  match l with
  | [] => true
  | _ :: _ => false
  end.

(** [std::queue::front]; calling it on an empty queue is undefined
    behaviour, rendered here as [None]. *)
Definition q_front (l : list T) : option T := head l.

(** [std::queue::pop] removes the front element. *)
Definition q_pop (l : list T) : list T := tail l.

(** [std::queue::push] appends at the back. *)
Definition q_push (v : T) (l : list T) : list T := l ++ [v].
End StdQueue.

(** ** The class state and the results of a member function *)

Section Class.
Context {T : Type}.

(** The data members that the mutex protects. *)
Record queue := Queue {
  m_queue : list T;
  m_joined : bool
}.

Definition set_m_queue (l : list T) (q : queue) : queue :=
  {| m_queue := l; m_joined := m_joined q |}.

Definition set_m_joined (b : bool) (q : queue) : queue :=
  {| m_queue := m_queue q; m_joined := b |}.

(** Calls on [m_condition]. *)
Inductive notify := NotifyOne | NotifyAll.

(** What a member function does with [m_condition] on its way out:
    nothing; [notify_all] while it still holds the mutex ([get]); or a
    notification after [lock.unlock()] ([push], [stop]). *)
Inductive signal :=
| Silent
| LockedNotifyAll
| Unlocked (n : notify).

(** Result of running a member function from the point where it holds
    the mutex: it returns [a] leaving the state [q], or it goes to
    sleep inside [m_condition.wait] leaving the state [q], or it runs
    into undefined behaviour ([front] on an empty queue). *)
Inductive outcome (A : Type) :=
| Return (a : A) (s : signal) (q : queue)
| Wait (q : queue)
| Undefined.
Global Arguments Return {A} a s q.
Global Arguments Wait {A} q.
Global Arguments Undefined {A}.

(** The state a member function leaves behind. *)
Definition post {A} (r : outcome A) : option queue :=
  match r with
  | Return _ _ q => Some q
  | Wait q => Some q
  | Undefined => None
  end.

(** The value it returns, when it returns. *)
Definition returned {A} (r : outcome A) : option A :=
  match r with
  | Return a _ _ => Some a
  | _ => None
  end.

(** ** get *)

(** The lambda handed to [m_condition.wait] in [get]. *)
Definition get_wait_pred (q : queue) : bool :=
  negb (q_empty (m_queue q)) || (m_joined q && q_empty (m_queue q)).

(** The code of [get] after [m_condition.wait] has returned. *)
Definition get_after_wait (q : queue) : outcome (option T) :=
  if m_joined q && Nat.eqb (q_size (m_queue q)) 0 then
    Return None Silent q
  else
    match q_front (m_queue q) with
    | Some out =>
        Return (Some out) LockedNotifyAll
               (set_m_queue (q_pop (m_queue q)) q)
    | None => Undefined
    end.

(** [m_condition.wait(lock, pred)] is [while (!pred()) wait(lock);]:
    with the mutex held the predicate is evaluated; if it holds the
    function goes on, otherwise the thread sleeps.  The same code runs
    each time the thread is woken and has the mutex again. *)
Definition get_wait (q : queue) : outcome (option T) :=
  if get_wait_pred q then get_after_wait q else Wait q.

Definition get (q : queue) : outcome (option T) :=
  if m_joined q && Nat.eqb (q_size (m_queue q)) 0 then
    Return None Silent q
  else
    get_wait q.

(** ** push *)

Definition push (value : T) (q : queue) : outcome bool :=
  if m_joined q then
    Return false Silent q
  else
    Return true (Unlocked NotifyOne)
           (set_m_queue (q_push value (m_queue q)) q).

(** ** empty, complete, size *)

Definition empty (q : queue) : outcome bool :=
  Return (q_empty (m_queue q)) Silent q.

Definition complete (q : queue) : outcome bool :=
  Return (m_joined q && q_empty (m_queue q)) Silent q.

Definition size (q : queue) : outcome nat :=
  Return (q_size (m_queue q)) Silent q.

(** ** stop *)

Definition stop (q : queue) : outcome unit :=
  Return tt (Unlocked NotifyAll) (set_m_joined true q).

(** The destructor calls [stop], so that threads waiting on the
    condition variable are notified. *)
Definition destructor (q : queue) : outcome unit := stop q.

(** ** join *)

(** The lambda handed to [m_condition.wait] in [join]. *)
Definition join_wait_pred (q : queue) : bool :=
  m_joined q && q_empty (m_queue q).

(** [m_condition.wait(lock, pred)] in [join]; nothing follows it. *)
Definition join_wait (q : queue) : outcome unit :=
  if join_wait_pred q then Return tt Silent q else Wait q.

Definition join (q : queue) : outcome unit :=
  let q := set_m_joined true q in
  if Nat.eqb (q_size (m_queue q)) 0 then
    Return tt Silent q
  else
    join_wait q.

(** ** The member functions behind one type *)

Inductive op :=
| Get
| Push (value : T)
| Empty
| Complete
| Stop
| Join
| Size.

Inductive value :=
| VItem (o : option T)
| VBool (b : bool)
| VSize (n : nat)
| VVoid.

Definition outcome_map {A B} (f : A -> B) (r : outcome A) : outcome B :=
  match r with
  | Return a s q => Return (f a) s q
  | Wait q => Wait q
  | Undefined => Undefined
  end.

Definition call (o : op) (q : queue) : outcome value :=
  match o with
  | Get => outcome_map VItem (get q)
  | Push v => outcome_map VBool (push v q)
  | Empty => outcome_map VBool (empty q)
  | Complete => outcome_map VBool (complete q)
  | Stop => outcome_map (fun _ => VVoid) (stop q)
  | Join => outcome_map (fun _ => VVoid) (join q)
  | Size => outcome_map VSize (size q)
  end.

(** The two places where a thread sleeps. *)
Inductive waiter := InGet | InJoin.

(** What a woken thread runs once it has the mutex again. *)
Definition resume (w : waiter) (q : queue) : outcome value :=
  match w with
  | InGet => outcome_map VItem (get_wait q)
  | InJoin => outcome_map (fun _ => VVoid) (join_wait q)
  end.

(** Where [call o q] sleeps, if it does. *)
Definition waits_in (o : op) : option waiter :=
  match o with
  | Get => Some InGet
  | Join => Some InJoin
  | _ => None
  end.

(** The two calls that close the queue. *)
Definition is_shutdown (o : op) : bool :=
  match o with
  | Stop | Join => true
  | _ => false
  end.

(** The state left by the calls [os] made one after the other, each
    taken up to its return or up to its sleep (the next call may come
    from another thread). *)
Fixpoint posts (os : list op) (q : queue) : option queue :=
  match os with
  | [] => Some q
  | o :: os =>
      match post (call o q) with
      | Some q' => posts os q'
      | None => None
      end
  end.

(** ** Straight-line programs of one thread *)

(** One thread calls the member functions [os] one after the other,
    with no other thread around.  It reaches the next call only when
    the previous one has returned; a call that sleeps is never woken
    (nobody else is there to change the state), so the program has no
    result then. *)
Fixpoint run_ops (os : list op) (q : queue) : option (list value * queue) :=
  match os with
  | [] => Some ([], q)
  | o :: os =>
      match call o q with
      | Return v _ q' =>
          match run_ops os q' with
          | Some (vs, q'') => Some (v :: vs, q'')
          | None => None
          end
      | _ => None
      end
  end.
End Class.

Global Arguments queue : clear implicits.
Global Arguments op : clear implicits.
Global Arguments value : clear implicits.

End TSQ.

(** * Threads around the queue *)

Module Monitor.
Import TSQ.

Section Threads.
Context {T : Type}.

(** Where a thread stands with respect to the queue. *)
Inductive pc :=
| Idle                                (* outside every member function *)
| Sleeping (w : waiter)               (* inside m_condition.wait, mutex released *)
| Woken (w : waiter)                  (* unblocked, has to take the mutex again *)
| Leaving (n : notify) (v : value T). (* past lock.unlock(), notification and
                                         return statement still to run *)

Record system := System {
  shared : queue T;
  threads : list pc
}.

Definition asleep (p : pc) : bool :=
  match p with
  | Sleeping _ => true
  | _ => false
  end.

(** The thread is inside the [m_condition.wait] of [w], asleep or
    unblocked. *)
Definition in_wait (w : waiter) (p : pc) : bool :=
  match p, w with
  | Sleeping InGet, InGet | Woken InGet, InGet => true
  | Sleeping InJoin, InJoin | Woken InJoin, InJoin => true
  | _, _ => false
  end.

Definition wake (p : pc) : pc :=
  match p with
  | Sleeping w => Woken w
  | _ => p
  end.

(** [m_condition.notify_all()] unblocks every thread waiting on the
    condition variable. *)
Definition notify_all (ts : list pc) : list pc := wake <$> ts.

(** [m_condition.notify_one()] unblocks one of the waiting threads if
    there is any; which one is not specified, so the choice [target] is
    part of the schedule.  With no thread waiting it does nothing. *)
Definition notify_one (target : option nat) (ts : list pc) : option (list pc) :=
  match target with
  | Some i =>
      match ts !! i with
      | Some (Sleeping w) => Some (<[i := Woken w]> ts)
      | _ => None
      end
  | None => if existsb asleep ts then None else Some ts
  end.

Definition deliver (n : notify) (target : option nat) (ts : list pc)
  : option (list pc) :=
  match n with
  | NotifyOne => notify_one target ts
  | NotifyAll => Some (notify_all ts)
  end.

(** The moves of a schedule. *)
Inductive event :=
| Call (t : nat) (o : op T)   (* idle thread t calls o and runs it up to the
                                 release of the mutex or to the sleep *)
| Notify (t : nat) (target : option nat)
                              (* thread t, past lock.unlock(), notifies and
                                 returns *)
| Resume (t : nat)            (* unblocked thread t has the mutex again and
                                 evaluates the wait predicate *)
| Spurious (t : nat).         (* sleeping thread t wakes without a
                                 notification *)

(** Thread [t] has run a critical section with result [r]; [w] is the
    wait it is in if it sleeps.  The second component is the value
    handed to the caller when the member function returns in this
    move. *)
Definition settle (t : nat) (w : option waiter) (r : outcome (value T))
    (ts : list pc) : option (system * option (value T)) :=
  match r with
  | Return v Silent q => Some (System q (<[t := Idle]> ts), Some v)
  | Return v LockedNotifyAll q =>
      Some (System q (<[t := Idle]> (notify_all ts)), Some v)
  | Return v (Unlocked n) q => Some (System q (<[t := Leaving n v]> ts), None)
  | Wait q =>
      match w with
      | Some w => Some (System q (<[t := Sleeping w]> ts), None)
      | None => None
      end
  | Undefined => None
  end.

(** One move; [None] when the move is not possible in [s]. *)
Definition step (s : system) (e : event) : option (system * option (value T)) :=
  match e with
  | Call t o =>
      match threads s !! t with
      | Some Idle => settle t (waits_in o) (call o (shared s)) (threads s)
      | _ => None
      end
  | Notify t target =>
      match threads s !! t with
      | Some (Leaving n v) =>
          match deliver n target (threads s) with
          | Some ts => Some (System (shared s) (<[t := Idle]> ts), Some v)
          | None => None
          end
      | _ => None
      end
  | Resume t =>
      match threads s !! t with
      | Some (Woken w) => settle t (Some w) (resume w (shared s)) (threads s)
      | _ => None
      end
  | Spurious t =>
      match threads s !! t with
      | Some (Sleeping w) =>
          Some (System (shared s) (<[t := Woken w]> (threads s)), None)
      | _ => None
      end
  end.

(** A schedule, move by move, with what each move handed back. *)
Fixpoint exec (s : system) (es : list event)
  : option (system * list (event * option (value T))) :=
  match es with
  | [] => Some (s, [])
  | e :: es =>
      match step s e with
      | Some (s', v) =>
          match exec s' es with
          | Some (s'', tr) => Some (s'', (e, v) :: tr)
          | None => None
          end
      | None => None
      end
  end.

(** The values enqueued along a trace: a call of [push] that did not
    return [false] on the spot has appended its argument. *)
Definition enqueued_by (x : event * option (value T)) : list T :=
  match x with
  | (Call _ (Push v), None) => [v]
  | _ => []
  end.

(** The values handed out by [get] along a trace, either straight
    from the call or after a wait. *)
Definition dequeued_by (x : event * option (value T)) : list T :=
  match x with
  | (Call _ Get, Some (VItem (Some out))) => [out]
  | (Resume _, Some (VItem (Some out))) => [out]
  | _ => []
  end.

Definition enqueued (tr : list (event * option (value T))) : list T :=
  concat (enqueued_by <$> tr).

Definition dequeued (tr : list (event * option (value T))) : list T :=
  concat (dequeued_by <$> tr).
End Threads.

Global Arguments pc : clear implicits.
Global Arguments system : clear implicits.
Global Arguments event : clear implicits.

End Monitor.

(** * The demonstration program (main.cpp)

    [main] creates the queue (called [locked_opt_queue<long>] there, the
    name the header's own comment uses for the class), starts a thread
    that it detaches, pushes 1333, calls [join], prints a line and
    returns; returning from [main] destroys the queue, whose destructor
    calls [stop], and ends the process, the detached thread with it.
    The detached thread loops: it calls [get], leaves the loop on the
    empty result, prints the item otherwise; after the loop it prints a
    last line. *)

Module Demo.
Import TSQ Monitor.

Local Open Scope Z_scope.

(** The detached thread is thread 0 of the schedule, [main] thread 1. *)

(** Where the detached thread stands: at [counter_queue.get()] (about
    to call it, or inside it), at [std::cout << *item], at
    [std::cout << "done thread\n"], or past it. *)
Inductive consumer_pc :=
| AtGet
| AtPrintItem (item : Z)
| AtPrintDone
| ConsumerDone.

(** Where [main] stands: at [push(1333)], at [join()], at [printf], at
    the closing brace where the queue is destroyed, or gone. *)
Inductive main_pc :=
| AtPush
| AtJoin
| AtPrintf
| AtDestructor
| Exited.

(** What the detached thread writes to [std::cout]. *)
Inductive line :=
| LItem (item : Z)
| LDone.

Record world := World {
  sys : system Z;
  cpc : consumer_pc;
  mpc : main_pc;
  cout : list line
}.

(** A move of the program: a move of the queue's schedule, or one of
    the two threads printing. *)
Inductive move :=
| Sched (e : event Z)
| Print (t : nat).

Definition actor (e : event Z) : nat :=
  match e with
  | Call t _ | Notify t _ | Resume t | Spurious t => t
  end.

(** The calls the program text allows each thread to make next. *)
Definition may_call (w : world) (t : nat) (o : op Z) : bool :=
  match t, o with
  | 0%nat, Get => match cpc w with AtGet => true | _ => false end
  | 1%nat, Push v => match mpc w with AtPush => Z.eqb v 1333 | _ => false end
  | 1%nat, Join => match mpc w with AtJoin => true | _ => false end
  | 1%nat, Stop => match mpc w with AtDestructor => true | _ => false end
  | _, _ => false
  end.

Definition allowed (w : world) (e : event Z) : bool :=
  match e with
  | Call t o => may_call w t o
  | _ => true
  end.

(** A member function has returned [v] to thread [t]: the thread moves
    on in its text.  The detached thread tests the result of [get];
    [main] ignores what [push] returns. *)
Definition returns_to (t : nat) (v : value Z) (w : world) : world :=
  match t with
  | 0%nat =>
      match v with
      | VItem (Some item) => World (sys w) (AtPrintItem item) (mpc w) (cout w)
      | VItem None => World (sys w) AtPrintDone (mpc w) (cout w)
      | _ => w
      end
  | 1%nat =>
      match mpc w with
      | AtPush => World (sys w) (cpc w) AtJoin (cout w)
      | AtJoin => World (sys w) (cpc w) AtPrintf (cout w)
      | AtDestructor => World (sys w) (cpc w) Exited (cout w)
      | _ => w
      end
  | _ => w
  end.

(** One move of the program; [None] when it is not possible.  Once
    [main] has returned the process is over and nothing moves. *)
Definition demo_step (w : world) (m : move) : option world :=
  match mpc w with
  | Exited => None
  | _ =>
      match m with
      | Sched e =>
          if allowed w e then
            match step (sys w) e with
            | Some (s', Some v) =>
                Some (returns_to (actor e) v (World s' (cpc w) (mpc w) (cout w)))
            | Some (s', None) => Some (World s' (cpc w) (mpc w) (cout w))
            | None => None
            end
          else None
      | Print 0 =>
          match cpc w with
          | AtPrintItem item =>
              Some (World (sys w) AtGet (mpc w) (cout w ++ [LItem item]))
          | AtPrintDone =>
              Some (World (sys w) ConsumerDone (mpc w) (cout w ++ [LDone]))
          | _ => None
          end
      | Print 1 =>
          match mpc w with
          | AtPrintf => Some (World (sys w) (cpc w) AtDestructor (cout w))
          | _ => None
          end
      | Print _ => None
      end
  end.

Fixpoint run_moves (w : world) (ms : list move) : option world :=
  match ms with
  | [] => Some w
  | m :: ms =>
      match demo_step w m with
      | Some w' => run_moves w' ms
      | None => None
      end
  end.

(** The start: an empty open queue, both threads outside it. *)
Definition init : world :=
  World (System (Queue [] false) [Idle; Idle]) AtGet AtPush [].

Definition is_spurious (m : move) : bool :=
  match m with
  | Sched (Spurious _) => true
  | _ => false
  end.

(** [main] has come back from [join]. *)
Definition past_join (w : world) : bool :=
  match mpc w with
  | AtPrintf | AtDestructor | Exited => true
  | _ => false
  end.

(** ** Enumeration of the worlds the program can be in

    These are devices of the proofs below, not part of the program. *)

#[global] Instance notify_eq_dec : EqDecision notify.
Proof. solve_decision. Defined.
#[global] Instance waiter_eq_dec : EqDecision waiter.
Proof. solve_decision. Defined.
#[global] Instance value_eq_dec : EqDecision (value Z).
Proof. solve_decision. Defined.
#[global] Instance pc_eq_dec : EqDecision (pc Z).
Proof. solve_decision. Defined.
#[global] Instance queue_eq_dec : EqDecision (queue Z).
Proof. solve_decision. Defined.
#[global] Instance system_eq_dec : EqDecision (system Z).
Proof. solve_decision. Defined.
#[global] Instance consumer_pc_eq_dec : EqDecision consumer_pc.
Proof. solve_decision. Defined.
#[global] Instance main_pc_eq_dec : EqDecision main_pc.
Proof. solve_decision. Defined.
#[global] Instance line_eq_dec : EqDecision line.
Proof. solve_decision. Defined.
#[global] Instance world_eq_dec : EqDecision world.
Proof. solve_decision. Defined.

(** With two threads every possible move does what one of these does. *)
Definition moves : list move :=
  [Sched (Call 0 Get); Sched (Call 1 (Push 1333));
   Sched (Call 1 Join); Sched (Call 1 Stop);
   Sched (Notify 0 None); Sched (Notify 0 (Some 0%nat));
   Sched (Notify 0 (Some 1%nat));
   Sched (Notify 1 None); Sched (Notify 1 (Some 0%nat));
   Sched (Notify 1 (Some 1%nat));
   Sched (Resume 0); Sched (Resume 1);
   Sched (Spurious 0); Sched (Spurious 1);
   Print 0; Print 1].

Definition successors (w : world) : list world :=
  omap (demo_step w) moves.

Fixpoint explore (fuel : nat) (frontier seen : list world) : list world :=
  match fuel with
  | O => seen
  | S fuel =>
      let new :=
        remove_dups (filter (fun w => w ∉ seen) (frontier ≫= successors)) in
      match new with
      | [] => seen
      | _ => explore fuel new (seen ++ new)
      end
  end.

Definition reachable_worlds : list world := explore 64 [init] [init].

Definition can_progress (w : world) : bool :=
  existsb (fun m => negb (is_spurious m) &&
                    match demo_step w m with Some _ => true | None => false end)
          moves.

End Demo.

(** * Properties of the member functions *)

Import TSQ.

Section SequentialFacts.
Context {T : Type}.
Implicit Types (q : queue T) (o : op T) (w : waiter) (l rest : list T).

Lemma q_size_zero l : Nat.eqb (q_size l) 0 = q_empty l.
Proof. by destruct l. Qed.

Lemma q_empty_true l : q_empty l = true <-> l = [].
Proof. by destruct l. Qed.

Lemma set_m_queue_same q : set_m_queue (m_queue q) q = q.
Proof. by destruct q. Qed.

Lemma set_m_joined_same q : set_m_joined (m_joined q) q = q.
Proof. by destruct q. Qed.

(** The two branches of [get] that return. *)
Lemma get_cons (out : T) rest j :
  get (Queue (out :: rest) j) = Return (Some out) LockedNotifyAll (Queue rest j).
Proof. by destruct j. Qed.

Lemma get_nil_joined :
  get (Queue (@nil T) true) = Return None Silent (Queue (@nil T) true).
Proof. done. Qed.

Lemma get_nil_open : get (Queue (@nil T) false) = Wait (Queue (@nil T) false).
Proof. done. Qed.

(** After the wait the same case analysis applies. *)
Lemma get_wait_eq_get q : get_wait q = get q.
Proof. destruct q as [[|x l] []]; done. Qed.

(** [front] is never reached on an empty queue. *)
Lemma call_defined o q : call o q <> Undefined.
Proof.
  destruct o, q as [[|x l] []]; done.
Qed.

Lemma resume_defined w q : resume w q <> Undefined.
Proof.
  destruct w, q as [[|x l] []]; done.
Qed.

(** Every state a member function can leave behind, by cases. *)
Lemma call_post o q :
  exists q', post (call o q) = Some q' /\
    (m_joined q = true -> m_joined q' = true) /\
    (m_queue q' = m_queue q
     \/ (exists v, o = Push v /\ m_joined q = false /\
                   call o q = Return (VBool true) (Unlocked NotifyOne) q' /\
                   m_queue q' = m_queue q ++ [v])
     \/ (exists out, o = Get /\
                   call o q = Return (VItem (Some out)) LockedNotifyAll q' /\
                   m_queue q = out :: m_queue q')).
Proof.
  destruct o, q as [[|x l] []]; cbn; eexists; (split; [reflexivity|]);
    (split; [done|]); cbn; eauto 10.
Qed.

Lemma resume_post w q :
  exists q', post (resume w q) = Some q' /\
    m_joined q' = m_joined q /\
    (q' = q
     \/ (exists out, w = InGet /\
                   resume w q = Return (VItem (Some out)) LockedNotifyAll q' /\
                   m_queue q = out :: m_queue q')).
Proof.
  destruct w, q as [[|x l] []]; cbn; eexists; (split; [reflexivity|]);
    (split; [done|]); cbn; eauto 10.
Qed.
End SequentialFacts.

Section Programs.
Context {T : Type}.
Implicit Types (q : queue T) (o : op T) (vs : list T).

Lemma run_ops_app (os1 os2 : list (op T)) q :
  run_ops (os1 ++ os2) q =
    match run_ops os1 q with
    | Some (rs1, q1) =>
        match run_ops os2 q1 with
        | Some (rs2, q2) => Some (rs1 ++ rs2, q2)
        | None => None
        end
    | None => None
    end.
Proof.
  revert q. induction os1 as [|o os1 IH]; intros q; cbn.
  - by destruct (run_ops os2 q) as [[rs2 q2]|].
  - destruct (call o q) as [v sg q1| |]; [|done..].
    rewrite IH. destruct (run_ops os1 q1) as [[rs1 q1']|]; [|done].
    by destruct (run_ops os2 q1') as [[rs2 q2]|].
Qed.

(** Pushes on an open queue all succeed and append in call order. *)
Lemma run_pushes vs q :
  m_joined q = false ->
  run_ops (Push <$> vs) q =
    Some ((fun _ => VBool true) <$> vs, set_m_queue (m_queue q ++ vs) q).
Proof.
  revert q. induction vs as [|v vs IH]; intros [l j] Hj; cbn in *; subst j.
  - by rewrite app_nil_r.
  - cbn. rewrite IH by done. cbn. unfold q_push. by rewrite <- app_assoc.
Qed.

(** As many gets as there are items, or fewer, hand out the items
    from the front. *)
Lemma run_gets (k : nat) q :
  k <= length (m_queue q) ->
  run_ops (replicate k Get) q =
    Some ((fun out => VItem (Some out)) <$> take k (m_queue q),
          set_m_queue (drop k (m_queue q)) q).
Proof.
  revert q. induction k as [|k IH]; intros [l j] Hk; cbn in *.
  - done.
  - destruct l as [|x l]; cbn in Hk; [lia|].
    rewrite get_cons. cbn. rewrite IH by (cbn; lia). done.
Qed.
End Programs.

(** * Properties of schedules *)

Import Monitor.

Section ScheduleFacts.
Context {T : Type}.
Implicit Types (q : queue T) (s : system T) (e : event T) (ts : list (pc T)).

Lemma settle_post t w (r : outcome (value T)) ts s' v :
  settle t w r ts = Some (s', v) -> post r = Some (shared s').
Proof.
  destruct r as [a [| |n] q|q|]; cbn; [| | |destruct w|]; intros [= <- <-]; done.
Qed.

(** A move changes the shared state only by running the critical
    section of a member function or of a wake-up. *)
Lemma step_shared s e s' v :
  step s e = Some (s', v) ->
  shared s' = shared s
  \/ (exists o, post (call o (shared s)) = Some (shared s'))
  \/ (exists w, post (resume w (shared s)) = Some (shared s')).
Proof.
  destruct e as [t o|t tg|t|t]; cbn;
    destruct (threads s !! t) as [[|w|w|n a]|]; try done.
  - intros H%settle_post. eauto.
  - destruct (deliver n tg (threads s)); intros [= <- <-]; auto.
  - intros H%settle_post. eauto.
  - intros [= <- <-]; auto.
Qed.

Lemma step_joined_mono s e s' v :
  step s e = Some (s', v) ->
  m_joined (shared s) = true -> m_joined (shared s') = true.
Proof.
  intros [->|[[o Ho]|[w Hw]]]%step_shared Hj; [done| |].
  - destruct (call_post o (shared s)) as (q' & Hq' & Hm & _). naive_solver.
  - destruct (resume_post w (shared s)) as (q' & Hq' & Hm & _). naive_solver.
Qed.

Lemma exec_joined_mono es s s' tr :
  exec s es = Some (s', tr) ->
  m_joined (shared s) = true -> m_joined (shared s') = true.
Proof.
  revert s tr. induction es as [|e es IH]; intros s tr; cbn.
  - by intros [= <- <-].
  - destruct (step s e) as [[s1 v]|] eqn:Hs; [|done].
    destruct (exec s1 es) as [[s2 tr2]|] eqn:He; [|done].
    intros [= <- <-] Hj. eapply IH; [done|]. by eapply step_joined_mono.
Qed.

(** Closed and empty: nothing changes the shared state any more. *)
Lemma step_complete_fixed s e s' v :
  step s e = Some (s', v) ->
  m_joined (shared s) = true -> m_queue (shared s) = [] ->
  shared s' = shared s.
Proof.
  intros [->|[[o Ho]|[w Hw]]]%step_shared Hj Hq; [done| |].
  - generalize dependent (shared s'). intros q' Ho.
    destruct (shared s) as [l j]; cbn in *; subst.
    destruct o; cbv in Ho; congruence.
  - generalize dependent (shared s'). intros q' Hw.
    destruct (shared s) as [l j]; cbn in *; subst.
    destruct w; cbv in Hw; congruence.
Qed.

Lemma exec_complete_fixed es s s' tr :
  exec s es = Some (s', tr) ->
  m_joined (shared s) = true -> m_queue (shared s) = [] ->
  shared s' = shared s.
Proof.
  revert s tr. induction es as [|e es IH]; intros s tr; cbn.
  - by intros [= <- <-].
  - destruct (step s e) as [[s1 v]|] eqn:Hs; [|done].
    destruct (exec s1 es) as [[s2 tr2]|] eqn:He; [|done].
    intros [= <- <-] Hj Hq.
    pose proof (step_complete_fixed _ _ _ _ Hs Hj Hq) as E.
    rewrite <- E. apply (IH _ _ He); by rewrite E.
Qed.

(** One move keeps the books: what was in the queue plus what the
    move enqueued is what the move handed out plus what is in the queue
    now. *)
Lemma step_fifo s e s' v :
  step s e = Some (s', v) ->
  m_queue (shared s) ++ enqueued_by (e, v) =
  dequeued_by (e, v) ++ m_queue (shared s').
Proof.
  destruct e as [t o|t tg|t|t]; cbn;
    destruct (threads s !! t) as [[|w|w|n a]|]; try done.
  - destruct o, (shared s) as [[|x l] []]; cbn; intros [= <- <-]; cbn;
      by rewrite ?app_nil_r.
  - destruct (deliver n tg (threads s)); intros [= <- <-]; cbn.
    by rewrite app_nil_r.
  - destruct w, (shared s) as [[|x l] []]; cbn; intros [= <- <-]; cbn;
      by rewrite ?app_nil_r.
  - intros [= <- <-]; cbn. by rewrite app_nil_r.
Qed.

(** X3. Whatever the number of threads and the schedule, the values
    handed out by [get] followed by the values still queued are the
    values that were queued at the start followed by the values
    enqueued, in the order of the critical sections. *)
Theorem exec_fifo es s s' tr :
  exec s es = Some (s', tr) ->
  m_queue (shared s) ++ enqueued tr = dequeued tr ++ m_queue (shared s').
Proof.
  revert s tr. induction es as [|e es IH]; intros s tr; cbn.
  - intros [= <- <-]. by rewrite app_nil_r.
  - destruct (step s e) as [[s1 v]|] eqn:Hs; [|done].
    destruct (exec s1 es) as [[s2 tr2]|] eqn:He; [|done].
    intros [= <- <-]. unfold enqueued, dequeued. rewrite !fmap_cons. cbn [concat].
    fold (enqueued tr2) (dequeued tr2).
    rewrite app_assoc, (step_fifo _ _ _ _ Hs), <- !app_assoc.
    f_equal. by apply IH.
Qed.
End ScheduleFacts.

(** * The member functions, one at a time *)

Section MemberFunctions.
Context {T : Type}.
Implicit Types (q : queue T) (o : op T) (w : waiter).

Lemma complete_true q :
  returned (complete q) = Some true <-> m_joined q = true /\ m_queue q = [].
Proof. destruct q as [[|x l] []]; cbn; split; (intros [? ?] || intros ?); done. Qed.

Lemma call_closed_empty o q :
  m_joined q = true -> m_queue q = [] -> post (call o q) = Some q.
Proof. destruct q as [l j]; cbn; intros -> ->. by destruct o. Qed.

Lemma resume_closed_empty w q :
  m_joined q = true -> m_queue q = [] -> post (resume w q) = Some q.
Proof. destruct q as [l j]; cbn; intros -> ->. by destruct w. Qed.

Lemma shutdown_closed o q :
  is_shutdown o = true -> m_joined q = true -> post (call o q) = Some q.
Proof. destruct q as [[|x l] j], o; cbn; by intros ? ->. Qed.

Lemma shutdown_closes o q :
  is_shutdown o = true -> post (call o q) = Some (set_m_joined true q).
Proof. by destruct q as [[|x l] j], o. Qed.

(** C1. Called on a closed and empty queue, [get] returns the empty
    result straight away (it does not wait) and leaves the state as it
    was.  Called on a queue that holds at least one item, whether
    closed or not, it removes the front item and returns it. *)
Theorem get_spec q :
  (m_joined q = true -> m_queue q = [] -> get q = Return None Silent q) /\
  (forall out rest, m_queue q = out :: rest ->
     get q = Return (Some out) LockedNotifyAll (set_m_queue rest q)).
Proof.
  destruct q as [l j]; cbn. split.
  - by intros -> ->.
  - intros out rest ->. apply get_cons.
Qed.

(** C2. On a closed queue every [push] returns [false] and leaves the
    state, hence the items and their number, as it was; and the state
    left by [stop] or by [join] is such a closed queue. *)
Theorem push_after_close q (v : T) :
  (m_joined q = true -> push v q = Return false Silent q) /\
  (forall q', post (stop q) = Some q' \/ post (join q) = Some q' ->
     push v q' = Return false Silent q' /\
     q_size (m_queue q') = q_size (m_queue q)).
Proof.
  split.
  - unfold push. by intros ->.
  - intros q' [H|H].
    + cbn in H. by injection H as <-.
    + destruct q as [[|x l] j]; cbn in H; by injection H as <-.
Qed.

(** C3. Pushes on an open queue followed by gets: every push succeeds,
    and the gets return the items that were queued, oldest first, in
    the order of the pushes; what is left is the rest in the same
    order.  And no member function, and no wake-up, does anything to
    the item sequence other than leave it alone, append one item at
    the back ([push]) or take one item from the front ([get]). *)
Theorem fifo_order :
  (forall q (vs : list T) (k : nat),
     m_joined q = false ->
     k <= length (m_queue q ++ vs) ->
     run_ops ((Push <$> vs) ++ replicate k Get) q =
       Some (((fun _ => VBool true) <$> vs) ++
             ((fun out => VItem (Some out)) <$> take k (m_queue q ++ vs)),
             set_m_queue (drop k (m_queue q ++ vs)) q)) /\
  (forall o q, exists q',
     post (call o q) = Some q' /\
     (m_queue q' = m_queue q
      \/ (exists v, o = Push v /\ m_queue q' = m_queue q ++ [v])
      \/ (exists out, o = Get /\ returned (call o q) = Some (VItem (Some out)) /\
                      m_queue q = out :: m_queue q'))) /\
  (forall w q, exists q',
     post (resume w q) = Some q' /\
     (m_queue q' = m_queue q
      \/ (exists out, w = InGet /\
                      returned (resume w q) = Some (VItem (Some out)) /\
                      m_queue q = out :: m_queue q'))).
Proof.
  split; [|split].
  - intros q vs k Hj Hk. rewrite run_ops_app, run_pushes by done.
    rewrite run_gets by done. by destruct q.
  - intros o q. destruct (call_post o q) as (q' & Hq' & _ & H).
    exists q'. split; [done|].
    destruct H as [H|[(v & -> & _ & _ & H)|(out & -> & E & H)]]; [eauto..|].
    right; right. exists out. by rewrite E.
  - intros w q. destruct (resume_post w q) as (q' & Hq' & _ & H).
    exists q'. split; [done|].
    destruct H as [->|(out & -> & E & H)]; [by left|].
    right. exists out. by rewrite E.
Qed.

(** C8. With the state at rest, [size] answers 0 exactly when [empty]
    answers true; and on a closed queue both are so exactly when
    [complete] answers true. *)
Theorem observers_consistent q :
  (returned (size q) = Some 0 <-> returned (empty q) = Some true) /\
  (m_joined q = true ->
     (returned (empty q) = Some true <-> returned (complete q) = Some true) /\
     (returned (size q) = Some 0 <-> returned (complete q) = Some true)).
Proof.
  destruct q as [[|x l] j]; cbn; split; try intros ->; naive_solver.
Qed.

(** C10. [empty], [size] and [complete] leave the items and the closed
    flag as they found them, and touch the condition variable not at
    all. *)
Theorem observers_pure q :
  (exists b, empty q = Return b Silent q) /\
  (exists n, size q = Return n Silent q) /\
  (exists b, complete q = Return b Silent q).
Proof. unfold empty, size, complete. repeat split; eexists; reflexivity. Qed.

(** C7. Once [stop] or [join] has been called, any number of further
    calls of [stop] and [join], in any order, leave the items and the
    closed flag as the first call left them; this holds whatever the
    state at the first call was, the closed and empty one included,
    and none of the calls runs into undefined behaviour. *)
Theorem shutdown_idempotent q (first : op T) (later : list (op T)) :
  is_shutdown first = true ->
  Forall (fun o => is_shutdown o = true) later ->
  exists q1, post (call first q) = Some q1 /\ posts later q1 = Some q1.
Proof.
  intros Hf Hl. exists (set_m_joined true q). split; [by apply shutdown_closes|].
  induction Hl as [|o later Ho _ IH]; cbn; [done|].
  by rewrite (shutdown_closed o) by done.
Qed.
End MemberFunctions.

(** * Threads that wait *)

Section WaitingFacts.
Context {T : Type}.
Implicit Types (q : queue T) (s : system T) (e : event T)
  (ts : list (pc T)) (p : pc T) (w : waiter) (t : nat).

Lemma in_wait_wake w p : in_wait w p = true -> in_wait w (wake p) = true.
Proof. by destruct p as [|[]|[]|], w. Qed.

Lemma lookup_notify_all ts t p :
  ts !! t = Some p -> notify_all ts !! t = Some (wake p).
Proof. intros H. unfold notify_all. by rewrite list_lookup_fmap, H. Qed.

(** A notification turns sleepers into unblocked threads and does
    nothing else. *)
Lemma lookup_deliver n tg ts ts' t p :
  deliver n tg ts = Some ts' -> ts !! t = Some p ->
  ts' !! t = Some p \/ ts' !! t = Some (wake p).
Proof.
  destruct n; cbn.
  - destruct tg as [i|]; cbn.
    + destruct (ts !! i) as [[|w0|w0|n a]|] eqn:Hi; try done.
      intros [= <-] Ht. destruct (decide (i = t)) as [->|Hne].
      * right. rewrite list_lookup_insert_eq by (by eapply lookup_lt_Some).
        rewrite Hi in Ht. by injection Ht as <-.
      * left. by rewrite list_lookup_insert_ne.
    + destruct (existsb asleep ts); [done|]. intros [= <-]; auto.
  - intros [= <-] Ht. right. by apply lookup_notify_all.
Qed.

(** The critical section of thread [u] leaves another thread [t]
    where it was, or unblocks it. *)
Lemma lookup_settle u wo (r : outcome (value T)) ts s' v t p :
  settle u wo r ts = Some (s', v) -> u <> t -> ts !! t = Some p ->
  threads s' !! t = Some p \/ threads s' !! t = Some (wake p).
Proof.
  intros H Hne Ht.
  destruct r as [a [| |n] q|q|]; cbn in H; [| | |destruct wo|];
    try done; injection H as <- <-; cbn;
    rewrite list_lookup_insert_ne by done; auto.
  right. by apply lookup_notify_all.
Qed.

Lemma stay_waiting w p (now : option (pc T)) :
  now = Some p \/ now = Some (wake p) -> in_wait w p = true ->
  exists p', now = Some p' /\ in_wait w p' = true.
Proof. intros [->| ->] Hw; eauto using in_wait_wake. Qed.

(** A thread inside a wait stays inside it through every move, except
    through its own wake-up when that one returns. *)
Lemma step_waiting s e s' v t w p :
  step s e = Some (s', v) ->
  threads s !! t = Some p -> in_wait w p = true ->
  (exists p', threads s' !! t = Some p' /\ in_wait w p' = true)
  \/ (e = Resume t /\ p = Woken w /\
      exists a sg, resume w (shared s) = Return a sg (shared s') /\ v = Some a).
Proof.
  intros Hs Ht Hw.
  destruct e as [u o|u tg|u|u]; cbn in Hs;
    destruct (threads s !! u) as [[|w0|w0|n a]|] eqn:Hu; try done.
  - left. assert (u <> t) by (intros ->; rewrite Hu in Ht; by injection Ht as <-).
    eapply stay_waiting; [|done]. eapply lookup_settle; eauto.
  - left. assert (u <> t) by (intros ->; rewrite Hu in Ht; by injection Ht as <-).
    destruct (deliver n tg (threads s)) as [ts'|] eqn:Hd; [|done].
    injection Hs as <- <-; cbn. rewrite list_lookup_insert_ne by done.
    eapply stay_waiting; [|done]. eapply lookup_deliver; eauto.
  - destruct (decide (u = t)) as [->|Hne].
    + rewrite Hu in Ht. injection Ht as <-.
      assert (w0 = w) as -> by (by destruct w0, w).
      assert (t < length (threads s)) by (by eapply lookup_lt_Some).
      destruct (resume w (shared s)) as [a [| |n] q|q|] eqn:Hr; cbn in Hs;
        try done; injection Hs as <- <-; cbn.
      * right. eauto 10.
      * right. eauto 10.
      * destruct w, (shared s) as [[|x l] []]; done.
      * left. exists (Sleeping w).
        rewrite list_lookup_insert_eq by done. by destruct w.
    + left. eapply stay_waiting; [|done]. eapply lookup_settle; eauto.
  - left. injection Hs as <- <-; cbn. destruct (decide (u = t)) as [->|Hne].
    + rewrite Hu in Ht. injection Ht as <-.
      rewrite list_lookup_insert_eq by (by eapply lookup_lt_Some).
      exists (Woken w0). split; [done|]. by destruct w0, w.
    + rewrite list_lookup_insert_ne by done. eauto.
Qed.
End WaitingFacts.

(** * Closing the queue *)

Section Shutdown.
Context {T : Type}.
Implicit Types (q : queue T) (s : system T) (e : event T)
  (ts : list (pc T)) (p : pc T) (w : waiter) (t c : nat).

(** C5. On a closed queue every member function, up to its return or
    its sleep, and every wake-up leave the queue closed; so does every
    schedule of any number of threads. *)
Theorem closed_monotonic q :
  m_joined q = true ->
  (forall o, exists q', post (call o q) = Some q' /\ m_joined q' = true) /\
  (forall w, exists q', post (resume w q) = Some q' /\ m_joined q' = true) /\
  (forall s es s' tr,
     shared s = q -> exec s es = Some (s', tr) -> m_joined (shared s') = true).
Proof.
  intros Hj. split; [|split].
  - intros o. destruct (call_post o q) as (q' & Hq' & Hm & _). eauto.
  - intros w. destruct (resume_post w q) as (q' & Hq' & Hm & _).
    exists q'. split; [done|]. by rewrite Hm.
  - intros s es s' tr <- He. by eapply exec_joined_mono.
Qed.

(** C4. When the queue is closed and empty, so that [complete] answers
    true, every member function (get, push, empty, size, complete,
    stop, join), every wake-up and every schedule leave it closed and
    empty, and [complete] answers true afterwards. *)
Theorem complete_terminal q :
  returned (complete q) = Some true ->
  (forall o, exists q',
     post (call o q) = Some q' /\ returned (complete q') = Some true) /\
  (forall w, exists q',
     post (resume w q) = Some q' /\ returned (complete q') = Some true) /\
  (forall s es s' tr,
     shared s = q -> exec s es = Some (s', tr) ->
     returned (complete (shared s')) = Some true).
Proof.
  intros Hc. pose proof Hc as [Hj Hq]%complete_true. split; [|split].
  - intros o. exists q. by rewrite call_closed_empty.
  - intros w. exists q. by rewrite resume_closed_empty.
  - intros s es s' tr <- He. by rewrite (exec_complete_fixed _ _ _ _ He).
Qed.

(** C6. [join] closes the queue, leaving the same state as [stop], so
    that every push from then on is rejected.  On an empty queue it
    returns without waiting.  On a queue with items it goes to sleep,
    and a thread inside the wait of [join] gets out of it only by a
    wake-up that finds the queue closed and empty. *)
Theorem join_spec q :
  post (join q) = Some (set_m_joined true q) /\
  post (join q) = post (stop q) /\
  (forall v, push v (set_m_joined true q)
             = Return false Silent (set_m_joined true q)) /\
  (m_queue q = [] -> join q = Return tt Silent (set_m_joined true q)) /\
  (m_queue q <> [] -> join q = Wait (set_m_joined true q)) /\
  (forall s e s' v t p,
     step s e = Some (s', v) ->
     threads s !! t = Some p -> in_wait InJoin p = true ->
     (exists p', threads s' !! t = Some p' /\ in_wait InJoin p' = true)
     \/ (e = Resume t /\ v = Some VVoid /\ shared s' = shared s /\
         m_joined (shared s) = true /\ m_queue (shared s) = [])).
Proof.
  repeat split.
  - by destruct q as [[|x l] j].
  - by destruct q as [[|x l] j].
  - by destruct q as [l j]; cbn; intros ->.
  - by destruct q as [[|x l] j].
  - intros s e s' v t p Hs Ht Hw.
    destruct (step_waiting _ _ _ _ _ _ _ Hs Ht Hw)
      as [H|(-> & -> & a & sg & Hr & ->)]; [by left|right].
    generalize dependent (shared s'). intros q' Hr.
    destruct (shared s) as [[|x l] []]; cbn in Hr; try done.
    by injection Hr as <- <- <-.
Qed.

(** X5. A thread inside the wait of [get] gets out of it only by a
    wake-up that finds the wait predicate true: an item is there, which
    it takes, or the queue is closed and empty, and it returns the empty
    result. *)
Lemma get_released_only_on_pred s e s' v t p :
  step s e = Some (s', v) ->
  threads s !! t = Some p -> in_wait InGet p = true ->
  (exists p', threads s' !! t = Some p' /\ in_wait InGet p' = true)
  \/ (e = Resume t /\ get_wait_pred (shared s) = true /\
      ((exists out, v = Some (VItem (Some out)) /\
                    m_queue (shared s) = out :: m_queue (shared s'))
       \/ (v = Some (VItem None) /\ shared s' = shared s /\
           m_joined (shared s) = true /\ m_queue (shared s) = []))).
Proof.
  intros Hs Ht Hw.
  destruct (step_waiting _ _ _ _ _ _ _ Hs Ht Hw)
    as [H|(-> & -> & a & sg & Hr & ->)]; [by left|right].
  generalize dependent (shared s'). intros q' Hr.
  destruct (shared s) as [[|x l] []]; cbn in Hr; try done;
    injection Hr as <- <- <-; cbn; eauto 10.
Qed.

(** The early return of [join] touches no thread: whoever sleeps on
    the condition variable sleeps on. *)
Lemma join_on_empty_notifies_nobody s t :
  threads s !! t = Some Idle -> m_queue (shared s) = [] ->
  step s (Call t Join)
  = Some (System (set_m_joined true (shared s)) (threads s), Some VVoid).
Proof.
  intros Ht Hq. cbn. rewrite Ht.
  destruct (shared s) as [l j]; cbn in *; subst l. cbn.
  by rewrite list_insert_id.
Qed.

(** X6. [stop] releases a sleeping consumer: with a thread asleep in
    [get] on an empty queue, the two moves of a call of [stop] by an
    idle thread unblock it, and its wake-up returns the empty result. *)
Lemma stop_releases_consumer s t c tg :
  threads s !! c = Some (Sleeping InGet) ->
  threads s !! t = Some Idle ->
  m_queue (shared s) = [] ->
  exists s' v,
    exec s [Call t Stop; Notify t tg; Resume c]
    = Some (s', [(Call t Stop, None); (Notify t tg, Some v);
                 (Resume c, Some (VItem None))])
    /\ threads s' !! c = Some Idle.
Proof.
  intros Hc Ht Hq.
  assert (t <> c) as Hne by (intros ->; congruence).
  assert (t < length (threads s)) by (by eapply lookup_lt_Some).
  assert (c < length (threads s)) by (by eapply lookup_lt_Some).
  destruct (shared s) as [l j] eqn:Hsh; cbn in Hq; subst l.
  cbn. rewrite Ht, Hsh. cbn.
  rewrite list_lookup_insert_eq by done. cbn.
  rewrite list_lookup_insert_ne by done.
  erewrite lookup_notify_all; [|by rewrite list_lookup_insert_ne].
  cbn. eexists _, _. split; [reflexivity|]. cbn.
  rewrite list_lookup_insert_eq; [done|].
  unfold notify_all. by rewrite !length_insert, length_fmap, length_insert.
Qed.
End Shutdown.

(** * The demonstration program

    [main.cpp]: a detached consumer thread (thread 0) loops on [get]
    until it receives the empty result; the main thread (thread 1)
    pushes 1333 and then calls [join]. *)

Section Demonstration.
Local Open Scope Z_scope.

(** C9. One schedule of the demonstration program.  The consumer
    calls [get] on the empty open queue and sleeps; the main thread
    pushes 1333 and notifies; the consumer wakes, takes 1333, calls
    [get] again and sleeps again; the main thread calls [join], which
    finds the queue empty, closes it and returns.  Now the queue is
    closed and empty and the wait predicate of [get] holds, yet the
    consumer still sleeps: [join] has notified nobody, no notification
    is pending and no thread is unblocked. *)
Theorem join_misses_sleeping_consumer :
  let s0 := System (Queue (@nil Z) false) [Idle; Idle] in
  let s1 := System (Queue (@nil Z) true) [Sleeping InGet; Idle] in
  exec s0 [Call 0 Get; Call 1 (Push 1333); Notify 1 (Some 0%nat); Resume 0;
           Call 0 Get; Call 1 Join]
  = Some (s1, [(Call 0 Get, None);
               (Call 1 (Push 1333), None);
               (Notify 1 (Some 0%nat), Some (VBool true));
               (Resume 0, Some (VItem (Some 1333)));
               (Call 0 Get, None);
               (Call 1 Join, Some VVoid)])
  /\ get_wait_pred (shared s1) = true
  /\ (forall t tg, step s1 (Notify t tg) = None)
  /\ (forall t, step s1 (Resume t) = None).
Proof.
  cbn zeta. repeat split.
  - intros [|[|t]] tg; reflexivity.
  - intros [|[|t]]; reflexivity.
Qed.

(** The other schedule: [join] comes while 1333 is still queued, and
    everybody gets out. *)
Example join_before_consumer_drains :
  exec (System (Queue (@nil Z) false) [Idle; Idle])
       [Call 0 Get; Call 1 (Push 1333); Notify 1 (Some 0%nat); Call 1 Join;
        Resume 0; Call 0 Get; Resume 1]
  = Some (System (Queue [] true) [Idle; Idle],
          [(Call 0 Get, None);
           (Call 1 (Push 1333), None);
           (Notify 1 (Some 0%nat), Some (VBool true));
           (Call 1 Join, None);
           (Resume 0, Some (VItem (Some 1333)));
           (Call 0 Get, Some (VItem None));
           (Resume 1, Some VVoid)]).
Proof. reflexivity. Qed.

(** With [stop] in the place of [join] the sleeping consumer is
    woken and returns the empty result. *)
Example stop_wakes_sleeping_consumer :
  exec (System (Queue (@nil Z) false) [Sleeping InGet; Idle])
       [Call 1 Stop; Notify 1 None; Resume 0]
  = Some (System (Queue [] true) [Idle; Idle],
          [(Call 1 Stop, None);
           (Notify 1 None, Some VVoid);
           (Resume 0, Some (VItem None))]).
Proof. reflexivity. Qed.

(** The scenario of the specification: 1, 2, 3 pushed, then read. *)
Example push_123_get_123 :
  run_ops [Push 1; Push 2; Push 3; Get; Get; Get; Stop; Get]
          (Queue [] false)
  = Some ([VBool true; VBool true; VBool true;
           VItem (Some 1); VItem (Some 2); VItem (Some 3);
           VVoid; VItem None],
          Queue [] true).
Proof. reflexivity. Qed.

(** A lone thread that reads an open empty queue sleeps for good. *)
Example get_on_open_empty_sleeps :
  get (Queue (@nil Z) false) = Wait (Queue [] false)
  /\ run_ops [Get] (Queue (@nil Z) false) = None.
Proof. done. Qed.
End Demonstration.

(** * Instances *)

Section Instances.
Local Open Scope Z_scope.

Lemma get_spec_witness :
  get (Queue (@nil Z) true) = Return None Silent (Queue [] true)
  /\ get (Queue [7; 8] false)
     = Return (Some 7) LockedNotifyAll (set_m_queue [8] (Queue [7; 8] false)).
Proof.
  split.
  - exact (proj1 (get_spec (Queue [] true)) eq_refl eq_refl).
  - exact (proj2 (get_spec (Queue [7; 8] false)) 7 [8] eq_refl).
Defined.

Lemma push_after_close_witness :
  push 5 (Queue [7; 8] true) = Return false Silent (Queue [7; 8] true)
  /\ push 5 (Queue [7; 8] true) = Return false Silent (Queue [7; 8] true)
     /\ q_size [7; 8] = q_size [7; 8].
Proof.
  split.
  - exact (proj1 (push_after_close (Queue [7; 8] true) 5) eq_refl).
  - exact (proj2 (push_after_close (Queue [7; 8] false) 5)
                 (Queue [7; 8] true) (or_introl eq_refl)).
Defined.

Lemma fifo_order_witness :
  run_ops ((Push <$> [1; 2; 3]) ++ replicate 3 Get) (Queue [] false)
  = Some (((fun _ => VBool true) <$> [1; 2; 3]) ++
          ((fun out => VItem (Some out)) <$> take 3 ([] ++ [1; 2; 3])),
          set_m_queue (drop 3 ([] ++ [1; 2; 3])) (Queue [] false)).
Proof.
  apply (proj1 (@fifo_order Z) (Queue [] false) [1; 2; 3] 3%nat).
  - reflexivity.
  - cbn. lia.
Defined.

Lemma observers_consistent_witness :
  m_joined (Queue (@nil Z) true) = true
  /\ (returned (empty (Queue (@nil Z) true)) = Some true
      <-> returned (complete (Queue (@nil Z) true)) = Some true).
Proof.
  split; [reflexivity|].
  exact (proj1 (proj2 (observers_consistent (Queue [] true)) eq_refl)).
Defined.

Lemma shutdown_idempotent_witness :
  exists q1, post (call Stop (Queue [7; 8] false)) = Some q1
             /\ posts [Join; Stop; Join] q1 = Some q1.
Proof.
  apply (shutdown_idempotent (Queue [7; 8] false) Stop [Join; Stop; Join]).
  - reflexivity.
  - repeat constructor.
Defined.

Lemma closed_monotonic_witness :
  m_joined (Queue [7; 8] true) = true
  /\ (exists q', post (call Get (Queue [7; 8] true)) = Some q'
                 /\ m_joined q' = true)
  /\ m_joined (shared (System (Queue [8] true) [Idle; Idle])) = true.
Proof.
  split; [reflexivity|]. split.
  - exact (proj1 (closed_monotonic (Queue [7; 8] true) eq_refl) Get).
  - exact (proj2 (proj2 (closed_monotonic (Queue [7; 8] true) eq_refl))
                 (System (Queue [7; 8] true) [Idle; Idle])
                 [Call 0 Get; Call 1 (Push 5)] _ _ eq_refl eq_refl).
Defined.

Lemma complete_terminal_witness :
  returned (complete (Queue (@nil Z) true)) = Some true
  /\ (exists q', post (call (Push 5) (Queue [] true)) = Some q'
                 /\ returned (complete q') = Some true)
  /\ returned (complete (shared (System (Queue (@nil Z) true) [Idle; Idle])))
     = Some true.
Proof.
  split; [reflexivity|]. split.
  - exact (proj1 (complete_terminal (Queue [] true) eq_refl) (Push 5)).
  - exact (proj2 (proj2 (complete_terminal (Queue [] true) eq_refl))
                 (System (Queue [] true) [Idle; Idle])
                 [Call 0 Get; Call 1 (Push 5); Call 1 Join] _ _
                 eq_refl eq_refl).
Defined.

Lemma join_spec_witness :
  (m_queue (Queue [7; 8] false) <> []
   /\ join (Queue [7; 8] false) = Wait (set_m_joined true (Queue [7; 8] false)))
  /\ join (Queue (@nil Z) false)
     = Return tt Silent (set_m_joined true (Queue [] false))
  /\ ((exists p', threads (System (Queue (@nil Z) true) [Idle; Idle]) !! 0%nat
                  = Some p' /\ in_wait InJoin p' = true)
      \/ (@Resume Z 0 = Resume 0 /\ Some VVoid = Some (@VVoid Z) /\
          Queue (@nil Z) true = Queue [] true /\
          m_joined (Queue (@nil Z) true) = true /\
          m_queue (Queue (@nil Z) true) = [])).
Proof.
  assert (m_queue (Queue [7; 8] false) <> []) as H by discriminate.
  split; [split; [exact H|]|split].
  - exact (proj1 (proj2 (proj2 (proj2 (proj2
             (join_spec (Queue [7; 8] false)))))) H).
  - exact (proj1 (proj2 (proj2 (proj2 (join_spec (Queue [] false))))) eq_refl).
  - exact (proj2 (proj2 (proj2 (proj2 (proj2 (join_spec (Queue [] false))))))
                 (System (Queue [] true) [Woken InJoin; Idle]) (Resume 0)
                 (System (Queue [] true) [Idle; Idle]) (Some VVoid)
                 0%nat (Woken InJoin) eq_refl eq_refl eq_refl).
Defined.
End Instances.


(** * Further properties of the member functions *)

Section Guards.
Context {T : Type}.
Implicit Types (q : queue T) (o : op T) (w : waiter).

(** X1. The code after the wait in [get] calls [front] on an empty
    queue exactly when the queue is open and empty.  The wait predicate
    excludes that state, so neither a member function nor a wake-up ever
    reaches the undefined behaviour, whatever the state. *)
Theorem front_guarded :
  (forall q, get_after_wait q = Undefined <->
             m_joined q = false /\ m_queue q = []) /\
  (forall q, get_wait_pred q = true -> get_after_wait q <> Undefined) /\
  (forall o q, call o q <> Undefined) /\
  (forall w q, resume w q <> Undefined).
Proof.
  split; [|split; [|split]].
  - intros [[|x l] []]; cbn; split; (intros [? ?] || intros ?); done.
  - intros [[|x l] []]; done.
  - apply call_defined.
  - apply resume_defined.
Qed.

(** X2. Which calls can put the caller to sleep: [get] sleeps exactly
    on an open empty queue (so never once the queue is closed), [join]
    sleeps exactly on a queue that holds items, and push, empty,
    complete, stop and size always return. *)
Theorem blocking_calls :
  (forall q, (exists q', get q = Wait q') <->
             m_joined q = false /\ m_queue q = []) /\
  (forall q, (exists q', join q = Wait q') <-> m_queue q <> []) /\
  (forall o q, o <> Get -> o <> Join ->
               exists v sg q', call o q = Return v sg q').
Proof.
  split; [|split].
  - intros [[|x l] []]; cbn; split;
      (intros [? ?] || intros ?); try done; eauto.
  - intros [[|x l] j]; cbn; split; (intros [? ?] || intros ?); try done; eauto.
  - intros o [l []] Hg Hj; destruct o; cbn; try done; eauto.
Qed.
End Guards.

(** * Further properties of schedules *)

Section Accounting.
Context {T : Type}.
Implicit Types (q : queue T) (s : system T) (e : event T)
  (ts : list (pc T)) (p : pc T) (w : waiter) (t : nat).

Lemma step_closed_no_enqueue s e s' v :
  step s e = Some (s', v) -> m_joined (shared s) = true ->
  enqueued_by (e, v) = [].
Proof.
  destruct e as [t o|t tg|t|t]; try done.
  destruct o; try done. cbn.
  destruct (threads s !! t) as [[|w|w|n a]|]; try done.
  destruct (shared s) as [l j]; cbn. intros Hs ->. cbn in Hs.
  by injection Hs as <- <-.
Qed.

Lemma exec_balance es s s' tr :
  exec s es = Some (s', tr) ->
  m_queue (shared s) ++ enqueued tr = dequeued tr ++ m_queue (shared s').
Proof.
  revert s tr. induction es as [|e es IH]; intros s tr; cbn.
  - intros [= <- <-]. by rewrite app_nil_r.
  - destruct (step s e) as [[s1 v]|] eqn:Hs; [|done].
    destruct (exec s1 es) as [[s2 tr2]|] eqn:He; [|done].
    intros [= <- <-]. specialize (IH _ _ He).
    pose proof (step_fifo _ _ _ _ Hs) as E.
    unfold enqueued, dequeued in *. rewrite !fmap_cons. cbn [concat].
    by rewrite app_assoc, E, <- !app_assoc, IH.
Qed.

(** X4. Once the queue is closed it only drains: along every schedule
    that starts on a closed queue nothing is enqueued, and the items at
    the start are the items handed out by [get], in that order, followed
    by the items still queued. *)
Theorem closed_queue_only_drains es s s' tr :
  exec s es = Some (s', tr) ->
  m_joined (shared s) = true ->
  enqueued tr = [] /\
  m_queue (shared s) = dequeued tr ++ m_queue (shared s').
Proof.
  revert s tr. induction es as [|e es IH]; intros s tr; cbn.
  - by intros [= <- <-].
  - destruct (step s e) as [[s1 v]|] eqn:Hs; [|done].
    destruct (exec s1 es) as [[s2 tr2]|] eqn:He; [|done].
    intros [= <- <-] Hj.
    destruct (IH _ _ He (step_joined_mono _ _ _ _ Hs Hj)) as [E1 E2].
    pose proof (step_closed_no_enqueue _ _ _ _ Hs Hj) as E3.
    pose proof (step_fifo _ _ _ _ Hs) as E4.
    rewrite E3, app_nil_r in E4.
    unfold enqueued, dequeued in *. rewrite !fmap_cons. cbn [concat].
    rewrite E3, E1. split; [done|].
    by rewrite E4, E2, app_assoc.
Qed.

(** X8. [join] returns only on a drained queue: when a call of [join]
    returns, straight away or after its wait, the queue is closed and
    empty, and every item that was queued at the start or enqueued along
    the schedule has been handed out by [get], in order. *)
Theorem join_returns_after_drain es s s1 tr e s2 t :
  exec s es = Some (s1, tr) ->
  step s1 e = Some (s2, Some VVoid) ->
  e = Call t Join \/ (e = Resume t /\ threads s1 !! t = Some (Woken InJoin)) ->
  m_joined (shared s2) = true /\ m_queue (shared s2) = [] /\
  m_queue (shared s) ++ enqueued tr = dequeued tr.
Proof.
  intros He Hs Hcase.
  pose proof (exec_balance _ _ _ _ He) as Hf.
  assert (m_joined (shared s2) = true /\ m_queue (shared s2) = [] /\
          m_queue (shared s1) = []) as (Hj & Hq & Hq1).
  { destruct Hcase as [->|[-> Ht]]; cbn in Hs.
    - destruct (threads s1 !! t) as [[|w|w|n a]|]; try done.
      destruct (shared s1) as [[|x l] j]; cbn in Hs; [|done].
      by injection Hs as <-.
    - rewrite Ht in Hs.
      destruct (shared s1) as [[|x l] []]; cbn in Hs; try done.
      by injection Hs as <-. }
  split; [done|]. split; [done|].
  by rewrite Hf, Hq1, app_nil_r.
Qed.

(** X9. [get] returns the empty result only on a closed and drained
    queue: when a call of [get] returns empty, straight away or after
    its wait, the queue is closed and empty, the call has left the state
    alone, and every item queued at the start or enqueued along the
    schedule has been handed out. *)
Theorem empty_result_after_drain es s s1 tr e s2 t :
  exec s es = Some (s1, tr) ->
  step s1 e = Some (s2, Some (VItem None)) ->
  e = Call t Get \/ e = Resume t ->
  shared s2 = shared s1 /\
  m_joined (shared s1) = true /\ m_queue (shared s1) = [] /\
  m_queue (shared s) ++ enqueued tr = dequeued tr.
Proof.
  intros He Hs Hcase.
  pose proof (exec_balance _ _ _ _ He) as Hf.
  assert (shared s2 = shared s1 /\ m_joined (shared s1) = true /\
          m_queue (shared s1) = []) as (E & Hj & Hq).
  { destruct Hcase as [->| ->]; cbn in Hs.
    - destruct (threads s1 !! t) as [[|w|w|n a]|]; try done.
      destruct (shared s1) as [[|x l] []]; cbn in Hs; try done.
      by injection Hs as <-.
    - destruct (threads s1 !! t) as [[|w|w|n a]|]; try done.
      destruct w, (shared s1) as [[|x l] []]; cbn in Hs; try done.
      by injection Hs as <-. }
  repeat split; try done. by rewrite Hf, Hq, app_nil_r.
Qed.
End Accounting.

Section Waking.
Context {T : Type}.
Implicit Types (q : queue T) (s : system T) (e : event T)
  (ts : list (pc T)) (p : pc T) (w : waiter) (t c j : nat).

Lemma asleep_wake p : asleep (wake p) = false.
Proof. by destruct p. Qed.

Lemma insert_same_pc ts t p : ts !! t = Some p -> <[t := p]> ts = ts.
Proof. apply list_insert_id. Qed.

(** X7. [stop] wakes everybody: after the two moves of a call of
    [stop] (the critical section, then [notify_all] and the return) the
    queue is closed with its items untouched, no thread sleeps on the
    condition variable, and every thread that was inside a wait is
    unblocked inside the same wait. *)
Theorem stop_wakes_everyone s t tg :
  threads s !! t = Some Idle ->
  exists s',
    exec s [Call t Stop; Notify t tg]
    = Some (s', [(Call t Stop, None); (Notify t tg, Some VVoid)])
    /\ shared s' = set_m_joined true (shared s)
    /\ Forall (fun p => asleep p = false) (threads s')
    /\ (forall i p w, threads s !! i = Some p -> in_wait w p = true ->
                      threads s' !! i = Some (Woken w)).
Proof.
  intros Ht.
  assert (t < length (threads s)) as Hlt by (by eapply lookup_lt_Some).
  cbn. rewrite Ht. cbn. rewrite list_lookup_insert_eq by done. cbn.
  eexists. split; [reflexivity|]. cbn. split; [done|]. split.
  - apply Forall_insert; [|done]. unfold notify_all.
    apply Forall_fmap, Forall_forall. intros p _. apply asleep_wake.
  - intros i p w Hi Hw.
    assert (i <> t) as Hne by (intros ->; rewrite Ht in Hi; by injection Hi as <-).
    rewrite list_lookup_insert_ne by done.
    erewrite lookup_notify_all; [|by rewrite list_lookup_insert_ne].
    by destruct p as [|[]|[]|], w.
Qed.

(** X12. A spurious wake-up changes nothing: a thread that sleeps in
    [get] on an open empty queue, or in [join] on a queue that holds
    items, and wakes without a notification, evaluates its predicate,
    finds it false and sleeps again, leaving the queue and every thread
    as they were. *)
Theorem spurious_wakeup_harmless s t w :
  threads s !! t = Some (Sleeping w) ->
  match w with
  | InGet => get_wait_pred (shared s) = false
  | InJoin => join_wait_pred (shared s) = false
  end ->
  exec s [Spurious t; Resume t]
  = Some (s, [(Spurious t, None); (Resume t, None)]).
Proof.
  intros Ht Hp.
  assert (t < length (threads s)) as Hlt by (by eapply lookup_lt_Some).
  cbn. rewrite Ht. cbn. rewrite list_lookup_insert_eq by done.
  assert (resume w (shared s) = Wait (shared s)) as ->.
  { destruct w; cbn; [unfold get_wait|unfold join_wait]; by rewrite Hp. }
  cbn. rewrite list_insert_insert_eq, insert_same_pc by done.
  by destruct s.
Qed.

(** X10. While the queue is open no thread is inside the wait of
    [join]: a schedule that starts in such a state keeps it so.  Hence
    on an open queue only consumers sleep on the condition variable. *)
Theorem no_joiner_while_open es s s' tr :
  exec s es = Some (s', tr) ->
  (m_joined (shared s) = false ->
   Forall (fun p => in_wait InJoin p = false) (threads s)) ->
  m_joined (shared s') = false ->
  Forall (fun p => in_wait InJoin p = false) (threads s').
Proof.
  revert s tr. induction es as [|e es IH]; intros s tr; cbn.
  { intros [= <- <-]. auto. }
  destruct (step s e) as [[s1 v]|] eqn:Hs; [|done].
  destruct (exec s1 es) as [[s2 tr2]|] eqn:He; [|done].
  intros [= <- <-] Hinv. apply (IH _ _ He). intros Hj1.
  assert (m_joined (shared s) = false) as Hj.
  { destruct (m_joined (shared s)) eqn:E; [|done].
    by rewrite (step_joined_mono _ _ _ _ Hs E) in Hj1. }
  specialize (Hinv Hj).
  assert (forall ts, Forall (fun p => in_wait InJoin p = false) ts ->
            Forall (fun p => in_wait InJoin p = false) (notify_all ts)) as Hall.
  { intros ts H. unfold notify_all. apply Forall_fmap.
    eapply Forall_impl; [exact H|]. intros [|[]|[]|] Hp; done. }
  assert (forall u w, threads s !! u = Some (Sleeping w) \/
                      threads s !! u = Some (Woken w) -> w = InGet) as Hget.
  { intros u w Hu. destruct w; [done|]. exfalso.
    destruct Hu as [Hu|Hu];
      pose proof (Forall_lookup_1 _ _ _ _ Hinv Hu) as Hf; done. }
  destruct e as [t o|t tg|t|t]; cbn in Hs;
    destruct (threads s !! t) as [[|w|w|n a]|] eqn:Ht; try done.
  - destruct o, (shared s) as [[|x l] []]; cbn in *; try done;
      injection Hs as <- <-; cbn in *; try done;
      try (apply Forall_insert; [|done]); auto.
  - destruct n; cbn in Hs.
    + destruct tg as [i|]; cbn in Hs.
      * destruct (threads s !! i) as [[|w0|w0|n0 a0]|] eqn:Hi; try done.
        injection Hs as <- <-; cbn.
        apply Forall_insert; [|done]. apply Forall_insert; [done|].
        by rewrite (Hget i w0) by auto.
      * destruct (existsb asleep (threads s)); [done|].
        injection Hs as <- <-; cbn. by apply Forall_insert.
    + injection Hs as <- <-; cbn. apply Forall_insert; auto.
  - rewrite (Hget t w) in * by auto.
    destruct (shared s) as [[|x l] []]; cbn in *; try done;
      injection Hs as <- <-; cbn in *;
      try (apply Forall_insert; [|done]); auto.
  - injection Hs as <- <-; cbn. apply Forall_insert; [done|].
    by rewrite (Hget t w) by auto.
Qed.

(** X11. The notification of [push] can go to the wrong sleeper.  A
    producer has enqueued and released the mutex but not yet called
    [notify_one]; meanwhile [join] was called and sleeps, next to a
    consumer asleep in [get].  If [notify_one] unblocks the thread in
    [join], that thread finds the queue not empty and sleeps again; the
    producer has returned, the item is still queued, and the consumer
    and the joining thread both sleep with no notification left. *)
Theorem push_notify_can_wake_joiner s t j c v :
  threads s !! t = Some (Leaving NotifyOne v) ->
  threads s !! j = Some (Sleeping InJoin) ->
  threads s !! c = Some (Sleeping InGet) ->
  m_queue (shared s) <> [] ->
  exists s',
    exec s [Notify t (Some j); Resume j]
    = Some (s', [(Notify t (Some j), Some v); (Resume j, None)])
    /\ shared s' = shared s
    /\ threads s' = <[t := Idle]> (threads s)
    /\ threads s' !! c = Some (Sleeping InGet)
    /\ threads s' !! j = Some (Sleeping InJoin).
Proof.
  intros Ht Hj Hc Hq.
  assert (t <> j) as Htj by (intros ->; congruence).
  assert (t <> c) as Htc by (intros ->; congruence).
  assert (j <> c) as Hjc by (intros ->; congruence).
  assert (t < length (threads s)) by (by eapply lookup_lt_Some).
  assert (j < length (threads s)) by (by eapply lookup_lt_Some).
  cbn. rewrite Ht. cbn. rewrite Hj. cbn.
  rewrite list_lookup_insert_ne by done.
  rewrite list_lookup_insert_eq by done.
  assert (join_wait (shared s) = Wait (shared s)) as Hw.
  { unfold join_wait, join_wait_pred.
    destruct (shared s) as [[|x l] []]; done. }
  cbn. rewrite Hw. cbn. eexists. split; [reflexivity|]. cbn.
  assert (<[j:=Sleeping InJoin]> (<[t:=Idle]> (<[j:=Woken InJoin]> (threads s)))
          = <[t:=Idle]> (threads s)) as ->.
  { rewrite (list_insert_insert_ne _ j t) by done.
    rewrite list_insert_insert_eq. f_equal. by apply insert_same_pc. }
  repeat split.
  - by rewrite list_lookup_insert_ne.
  - by rewrite list_lookup_insert_ne.
Qed.
End Waking.

(** * Properties of the demonstration program *)

Import Demo.

Section DemoProgram.
Local Open Scope Z_scope.

Lemma reachable_two_threads :
  Forall (fun w => length (threads (sys w)) = 2%nat) reachable_worlds.
Proof. apply (bool_decide_unpack _). by vm_compute. Qed.

Lemma reachable_successors :
  Forall (fun w => Forall (fun w' => w' ∈ reachable_worlds) (successors w))
         reachable_worlds.
Proof. apply (bool_decide_unpack _). by vm_compute. Qed.

(** With two threads, whatever a move does is done by one of [moves]. *)
Lemma step_by_listed_move w m w' :
  length (threads (sys w)) = 2%nat ->
  demo_step w m = Some w' ->
  exists m', m' ∈ moves /\ demo_step w m' = Some w' /\
             is_spurious m' = is_spurious m.
Proof.
  intros Hlen Hs.
  assert (forall m0, In m0 moves -> demo_step w m0 = Some w' ->
                     is_spurious m0 = is_spurious m ->
                     exists m', m' ∈ moves /\ demo_step w m' = Some w' /\
                                is_spurious m' = is_spurious m) as Hin.
  { intros m0 H0 H1 H2. exists m0. by rewrite list_elem_of_In. }
  destruct w as [[q ts] c mp out]; cbn in Hlen.
  destruct ts as [|p0 [|p1 [|p2 ts]]]; try done.
  assert (mp <> Exited) as Hmp by (by intros ->).
  destruct m as [[t o|t tg|t|t]|t].
  - apply (Hin (Sched (Call t o))); [|done..].
    destruct t as [|[|t]]; destruct o as [|x| | | | |];
      try (by destruct mp); try (cbn; tauto).
    destruct (Z.eqb_spec x 1333) as [->|Hx]; [cbn; tauto|].
    exfalso. apply Z.eqb_neq in Hx.
    destruct mp; cbn in Hs; rewrite ?Hx in Hs; done.
  - destruct t as [|[|t]]; [| |by destruct mp].
    + destruct p0 as [| | |n a]; try (by destruct mp).
      destruct n.
      * destruct tg as [[|[|i]]|].
        -- apply (Hin (Sched (Notify 0 (Some 0%nat)))); [cbn; tauto|done..].
        -- apply (Hin (Sched (Notify 0 (Some 1%nat)))); [cbn; tauto|done..].
        -- by destruct mp.
        -- apply (Hin (Sched (Notify 0 None))); [cbn; tauto|done..].
      * apply (Hin (Sched (Notify 0 None))); [cbn; tauto| |done].
        by destruct mp.
    + destruct p1 as [| | |n a]; try (by destruct mp).
      destruct n.
      * destruct tg as [[|[|i]]|].
        -- apply (Hin (Sched (Notify 1 (Some 0%nat)))); [cbn; tauto|done..].
        -- apply (Hin (Sched (Notify 1 (Some 1%nat)))); [cbn; tauto|done..].
        -- by destruct mp.
        -- apply (Hin (Sched (Notify 1 None))); [cbn; tauto|done..].
      * apply (Hin (Sched (Notify 1 None))); [cbn; tauto| |done].
        by destruct mp.
  - destruct t as [|[|t]]; [| |by destruct mp].
    + apply (Hin (Sched (Resume 0))); [cbn; tauto|done..].
    + apply (Hin (Sched (Resume 1))); [cbn; tauto|done..].
  - destruct t as [|[|t]]; [| |by destruct mp].
    + apply (Hin (Sched (Spurious 0))); [cbn; tauto|done..].
    + apply (Hin (Sched (Spurious 1))); [cbn; tauto|done..].
  - destruct t as [|[|t]]; [| |by destruct mp].
    + apply (Hin (Print 0)); [cbn; tauto|done..].
    + apply (Hin (Print 1)); [cbn; tauto|done..].
Qed.

Lemma reachable_step w m w' :
  w ∈ reachable_worlds -> demo_step w m = Some w' -> w' ∈ reachable_worlds.
Proof.
  intros Hw Hs.
  pose proof (proj1 (Forall_forall _ _) reachable_two_threads _ Hw) as Hlen.
  pose proof (proj1 (Forall_forall _ _) reachable_successors _ Hw) as Hsucc.
  destruct (step_by_listed_move _ _ _ Hlen Hs) as (m' & Hm' & Hs' & _).
  apply (proj1 (Forall_forall _ _) Hsucc). unfold successors.
  apply list_elem_of_omap. eauto.
Qed.

Lemma reachable_run ms w w' :
  w ∈ reachable_worlds -> run_moves w ms = Some w' -> w' ∈ reachable_worlds.
Proof.
  revert w. induction ms as [|m ms IH]; intros w Hw; cbn [run_moves].
  - intros [= <-]. exact Hw.
  - destruct (demo_step w m) as [w1|] eqn:Hs; [intros H|intros [=]].
    apply (IH w1); [|exact H]. exact (reachable_step _ _ _ Hw Hs).
Qed.

Lemma reachable_init : init ∈ reachable_worlds.
Proof. apply (bool_decide_unpack _). by vm_compute. Qed.
(** What holds in every enumerated world holds after every run. *)
Lemma after_every_run (P : world -> Prop) ms w :
  Forall P reachable_worlds -> run_moves init ms = Some w -> P w.
Proof.
  intros HP Hrun. apply (proj1 (Forall_forall _ _) HP).
  exact (reachable_run _ _ _ reachable_init Hrun).
Qed.


(** X14. Whatever the schedule, once [main] is back from [join] the
    queue is closed and empty and the detached thread has been handed
    1333: it is about to print it or has printed it. *)
Theorem demo_join_returns_after_take ms w :
  run_moves init ms = Some w ->
  past_join w = true ->
  m_joined (shared (sys w)) = true /\
  m_queue (shared (sys w)) = [] /\
  (cpc w = AtPrintItem 1333 \/ head (cout w) = Some (LItem 1333)).
Proof.
  apply (after_every_run
           (fun w => past_join w = true ->
                     m_joined (shared (sys w)) = true /\
                     m_queue (shared (sys w)) = [] /\
                     (cpc w = AtPrintItem 1333
                      \/ head (cout w) = Some (LItem 1333)))).
  apply (bool_decide_unpack _). vm_compute. exact I.
Qed.

(** X15. The program does not deadlock: whatever the schedule, spurious
    wake-ups included, as long as [main] has not returned some move
    other than a spurious wake-up is possible.  In particular [join]
    never waits for a consumer that nobody will wake. *)
Theorem demo_no_deadlock ms w :
  run_moves init ms = Some w ->
  mpc w <> Exited ->
  exists m w', is_spurious m = false /\ demo_step w m = Some w'.
Proof.
  intros Hrun Hmp.
  assert (can_progress w = true) as Hc.
  { revert Hmp. revert Hrun.
    apply (after_every_run
             (fun w => mpc w <> Exited -> can_progress w = true)).
    apply (bool_decide_unpack _). vm_compute. exact I. }
  unfold can_progress in Hc. apply existsb_exists in Hc.
  destruct Hc as (m & _ & Hm). apply andb_prop in Hm as [H1 H2].
  destruct (demo_step w m) as [w'|] eqn:Hs; [|discriminate H2].
  exists m, w'. split; [|exact Hs]. by destruct (is_spurious m).
Qed.

(** X16. [join] waits for the item to be taken, not for it to be
    printed: there is a schedule in which [main] returns, and the
    process ends, while the detached thread holds 1333 and has printed
    nothing. *)
Theorem demo_can_end_before_printing :
  exists ms w,
    run_moves init ms = Some w /\
    mpc w = Exited /\ cpc w = AtPrintItem 1333 /\ cout w = [].
Proof.
  exists [Sched (Call 1 (Push 1333)); Sched (Notify 1 None);
          Sched (Call 0 Get); Sched (Call 1 Join); Print 1;
          Sched (Call 1 Stop); Sched (Notify 1 None)].
  eexists. split; [vm_compute; reflexivity|]. by vm_compute.
Qed.
End DemoProgram.

(** * Instances of the further properties *)

Section MoreInstances.
Local Open Scope Z_scope.

Lemma front_guarded_witness :
  get_wait_pred (Queue [7; 8] false) = true
  /\ @get_after_wait Z (Queue [7; 8] false) <> Undefined.
Proof.
  split; [reflexivity|].
  exact (proj1 (proj2 (@front_guarded Z)) (Queue [7; 8] false) eq_refl).
Defined.

Lemma blocking_calls_witness :
  @Push Z 5 <> Get /\ @Push Z 5 <> Join
  /\ exists v sg q', call (Push 5) (Queue [7; 8] false) = Return v sg q'.
Proof.
  assert (@Push Z 5 <> Get) as H1 by discriminate.
  assert (@Push Z 5 <> Join) as H2 by discriminate.
  split; [exact H1|]. split; [exact H2|].
  exact (proj2 (proj2 (@blocking_calls Z)) (Push 5) (Queue [7; 8] false) H1 H2).
Defined.

Lemma exec_fifo_witness :
  exists s' tr,
    exec (System (Queue [7] false) [Idle; Idle])
         [Call 1 (Push 5); Call 0 Get; Notify 1 None; Call 0 Get]
    = Some (s', tr)
    /\ m_queue (shared (System (Queue [7] false) [Idle; Idle])) ++ enqueued tr
       = dequeued tr ++ m_queue (shared s').
Proof.
  eexists _, _. split; [reflexivity|].
  apply (exec_fifo [Call 1 (Push 5); Call 0 Get; Notify 1 None; Call 0 Get]
                   (System (Queue [7] false) [Idle; Idle])).
  reflexivity.
Defined.

Lemma closed_queue_only_drains_witness :
  exists s' tr,
    exec (System (Queue [7; 8] true) [Idle; Idle])
         [Call 1 (Push 5); Call 0 Get; Call 1 Join]
    = Some (s', tr)
    /\ m_joined (shared (System (Queue [7; 8] true) [Idle; Idle])) = true
    /\ enqueued tr = []
    /\ m_queue (shared (System (Queue [7; 8] true) [Idle; Idle]))
       = dequeued tr ++ m_queue (shared s').
Proof.
  eexists _, _. split; [reflexivity|]. split; [reflexivity|].
  apply (closed_queue_only_drains
           [Call 1 (Push 5); Call 0 Get; Call 1 Join]
           (System (Queue [7; 8] true) [Idle; Idle])); reflexivity.
Defined.

Lemma get_released_only_on_pred_witness :
  exists s' v,
    step (System (Queue [7] false) [Woken InGet; Idle]) (Resume 0) = Some (s', v)
    /\ ((exists p', threads s' !! 0%nat = Some p' /\ in_wait InGet p' = true)
        \/ (@Resume Z 0 = Resume 0 /\
            get_wait_pred (Queue [7] false) = true /\
            ((exists out, v = Some (VItem (Some out)) /\
                          [7] = out :: m_queue (shared s'))
             \/ (v = Some (VItem None) /\ shared s' = Queue [7] false /\
                 false = true /\ [7] = [])))).
Proof.
  eexists _, _. split; [reflexivity|].
  exact (get_released_only_on_pred
           (System (Queue [7] false) [Woken InGet; Idle]) (Resume 0) _ _
           0%nat (Woken InGet) eq_refl eq_refl eq_refl).
Defined.

Lemma stop_releases_consumer_witness :
  exists s' v,
    exec (System (Queue (@nil Z) false) [Sleeping InGet; Idle])
         [Call 1 Stop; Notify 1 None; Resume 0]
    = Some (s', [(Call 1 Stop, None); (Notify 1 None, Some v);
                 (Resume 0, Some (VItem None))])
    /\ threads s' !! 0%nat = Some Idle.
Proof.
  exact (stop_releases_consumer
           (System (Queue [] false) [Sleeping InGet; Idle]) 1 0 None
           eq_refl eq_refl eq_refl).
Defined.

Lemma stop_wakes_everyone_witness :
  exists s',
    exec (System (Queue [7] false) [Sleeping InGet; Idle; Woken InGet])
         [Call 1 Stop; Notify 1 None]
    = Some (s', [(Call 1 Stop, None); (Notify 1 None, Some VVoid)])
    /\ shared s' = set_m_joined true (Queue [7] false)
    /\ Forall (fun p => asleep p = false) (threads s')
    /\ (forall i (p : pc Z) w,
          [Sleeping InGet; Idle; Woken InGet] !! i = Some p ->
          in_wait w p = true -> threads s' !! i = Some (Woken w)).
Proof.
  exact (stop_wakes_everyone
           (System (Queue [7] false) [Sleeping InGet; Idle; Woken InGet])
           1 None eq_refl).
Defined.

Lemma join_returns_after_drain_witness :
  exists s1 tr s2,
    exec (System (Queue [7] false) [Idle; Idle]) [Call 1 Join; Call 0 Get]
    = Some (s1, tr)
    /\ step s1 (Resume 1) = Some (s2, Some VVoid)
    /\ threads s1 !! 1%nat = Some (Woken InJoin)
    /\ m_joined (shared s2) = true /\ m_queue (shared s2) = []
    /\ [7] ++ enqueued tr = dequeued tr.
Proof.
  eexists _, _, _. split; [reflexivity|]. split; [reflexivity|].
  split; [reflexivity|].
  apply (join_returns_after_drain
           [Call 1 Join; Call 0 Get]
           (System (Queue [7] false) [Idle; Idle]) _ _ (Resume 1) _ 1%nat
           eq_refl eq_refl).
  right. split; reflexivity.
Defined.

Lemma empty_result_after_drain_witness :
  exists s1 tr s2,
    exec (System (Queue [7] false) [Idle; Idle; Idle])
         [Call 0 Get; Call 1 Stop]
    = Some (s1, tr)
    /\ step s1 (Call 2 Get) = Some (s2, Some (VItem None))
    /\ shared s2 = shared s1
    /\ m_joined (shared s1) = true /\ m_queue (shared s1) = []
    /\ [7] ++ enqueued tr = dequeued tr.
Proof.
  eexists _, _, _. split; [reflexivity|]. split; [reflexivity|].
  apply (empty_result_after_drain
           [Call 0 Get; Call 1 Stop]
           (System (Queue [7] false) [Idle; Idle; Idle]) _ _ (Call 2 Get) _
           2%nat eq_refl eq_refl).
  left. reflexivity.
Defined.

Lemma no_joiner_while_open_witness :
  exists s' tr,
    exec (System (Queue (@nil Z) false) [Idle; Idle])
         [Call 0 Get; Call 1 (Push 5); Notify 1 (Some 0%nat)]
    = Some (s', tr)
    /\ m_joined (shared s') = false
    /\ Forall (fun p => in_wait InJoin p = false) (threads s').
Proof.
  eexists _, _. split; [reflexivity|]. split; [reflexivity|].
  apply (no_joiner_while_open
           [Call 0 Get; Call 1 (Push 5); Notify 1 (Some 0%nat)]
           (System (Queue [] false) [Idle; Idle]) _ _ eq_refl).
  - intros _. repeat constructor.
  - reflexivity.
Defined.

Lemma push_notify_can_wake_joiner_witness :
  exists s tr,
    exec (System (Queue (@nil Z) false) [Idle; Idle; Idle])
         [Call 0 Get; Call 1 (Push 5); Call 2 Join]
    = Some (s, tr)
    /\ m_queue (shared s) <> []
    /\ exists s',
         exec s [Notify 1 (Some 2%nat); Resume 2]
         = Some (s', [(Notify 1 (Some 2%nat), Some (VBool true));
                      (Resume 2, None)])
         /\ shared s' = shared s
         /\ threads s' = <[1%nat := Idle]> (threads s)
         /\ threads s' !! 0%nat = Some (Sleeping InGet)
         /\ threads s' !! 2%nat = Some (Sleeping InJoin).
Proof.
  assert (m_queue (Queue [5] true) <> []) as H by discriminate.
  eexists _, _. split; [reflexivity|]. split; [exact H|].
  exact (push_notify_can_wake_joiner
           (System (Queue [5] true)
                   [Sleeping InGet; Leaving NotifyOne (VBool true);
                    Sleeping InJoin])
           1 2 0 (VBool true) eq_refl eq_refl eq_refl H).
Defined.

Lemma spurious_wakeup_harmless_witness :
  get_wait_pred (Queue (@nil Z) false) = false
  /\ exec (System (Queue (@nil Z) false) [Sleeping InGet; Idle])
          [Spurious 0; Resume 0]
     = Some (System (Queue [] false) [Sleeping InGet; Idle],
             [(Spurious 0, None); (Resume 0, None)]).
Proof.
  split; [reflexivity|].
  exact (spurious_wakeup_harmless
           (System (Queue [] false) [Sleeping InGet; Idle]) 0 InGet
           eq_refl eq_refl).
Defined.


Lemma demo_join_returns_after_take_witness :
  exists w,
    run_moves init [Sched (Call 1 (Push 1333)); Sched (Notify 1 None);
                    Sched (Call 0 Get); Sched (Call 1 Join)]
    = Some w
    /\ past_join w = true
    /\ m_joined (shared (sys w)) = true
    /\ m_queue (shared (sys w)) = []
    /\ (cpc w = AtPrintItem 1333 \/ head (cout w) = Some (LItem 1333)).
Proof.
  eexists. split; [reflexivity|]. split; [reflexivity|].
  apply (demo_join_returns_after_take
           [Sched (Call 1 (Push 1333)); Sched (Notify 1 None);
            Sched (Call 0 Get); Sched (Call 1 Join)]); reflexivity.
Defined.

Lemma demo_no_deadlock_witness :
  exists w,
    run_moves init [Sched (Call 0 Get); Sched (Call 1 (Push 1333));
                    Sched (Notify 1 (Some 0%nat)); Sched (Call 1 Join)]
    = Some w
    /\ mpc w <> Exited
    /\ exists m w', is_spurious m = false /\ demo_step w m = Some w'.
Proof.
  eexists. split; [reflexivity|].
  assert (AtJoin <> Exited) as H by discriminate.
  split; [exact H|].
  exact (demo_no_deadlock
           [Sched (Call 0 Get); Sched (Call 1 (Push 1333));
            Sched (Notify 1 (Some 0%nat)); Sched (Call 1 Join)] _ eq_refl H).
Defined.
End MoreInstances.
